(** * codec-ts: bidirectional codecs over JavaScript values

    A shallow embedding of [src/index.ts] (the documented revision: [Result],
    [mapResult], [SerDe], the [Codec] class with [toObject], [fromObject],
    [fromJSON], [sel], [filter], [map], the primitive codecs, [array],
    [record] and [mapRecord]) and the properties of its specification.

    TypeScript types are erased at run time, so encoders and decoders are
    functions on untyped JavaScript values.  The model covers the values a
    document tree is made of ([undefined], [null], booleans, IEEE doubles,
    strings, arrays, plain objects) and function objects.  An object is the
    list of its own enumerable properties in enumeration order, which is
    what [for (key in o)] visits.  Reading [x[key]] looks for an own
    property first and then asks the host what the value inherits: the
    members of the built-in prototypes are a parameter of the model (the
    class [Host]), so that the theorems hold in every engine.

    User callbacks ([extract], [cond], [f]) and the JSON parser can have
    effects and can throw; computations therefore live in a state and
    exception monad over an arbitrary type of worlds. *)

From Stdlib Require Import List String Ascii ZArith Bool Arith Lia Permutation.
From Stdlib Require Import Floats.SpecFloat.
Import ListNotations.
Local Open Scope string_scope.

Set Implicit Arguments.
#[local] Set Warnings "-register-all".

(** ** JavaScript values *)

Module JS.

Definition Obj (A : Type) : Type := list (string * A).

Inductive Val : Type :=
| VUndefined
| VNull
| VBool (b : bool)
| VNum (n : spec_float)
| VStr (s : string)
| VArr (items : list Val)
| VObj (props : Obj Val)
| VFun (name : string).

(** Exceptions raised by the language itself or by a callback. *)
Inductive Exn : Type :=
| TypeError (msg : string)
| SyntaxError (msg : string)
| Thrown (v : Val).

(** [typeof v] *)
Definition typeof (v : Val) : string :=
  match v with
  | VUndefined => "undefined"
  | VNull => "object"
  | VBool _ => "boolean"
  | VNum _ => "number"
  | VStr _ => "string"
  | VArr _ => "object"
  | VObj _ => "object"
  | VFun _ => "function"
  end.

(** [Array.isArray(v)] *)
Definition isArray (v : Val) : bool :=
  match v with
  | VArr _ => true
  | _ => false
  end.

(** The items that [for (const x of v)] visits when [v] is an array. *)
Definition items_of (v : Val) : list Val :=
  match v with
  | VArr items => items
  | _ => []
  end.

(** ToBoolean: [!v] is [negb (truthy v)].  The falsy values are
    [undefined], [null], [false], [+0], [-0], [NaN] and the empty string. *)
Definition truthy (v : Val) : bool :=
  match v with
  | VUndefined => false
  | VNull => false
  | VBool b => b
  | VNum (S754_zero _) => false
  | VNum S754_nan => false
  | VNum _ => true
  | VStr s => negb (s =? "")
  | VArr _ => true
  | VObj _ => true
  | VFun _ => true
  end.

(** The double nearest to a natural number ([length] of arrays and strings). *)
Definition number_of_nat (n : nat) : spec_float :=
  binary_normalize 53 1024 (Z.of_nat n) 0 false.

(** *** Own properties *)

Fixpoint lookup {A : Type} (key : string) (o : Obj A) : option A :=
  match o with
  | [] => None
  | (k, v) :: rest => if k =? key then Some v else lookup key rest
  end.

(** [o[key] = v]: an existing property keeps its place, a new one is
    added after the others.  (Assigning to the key [__proto__] sets the
    prototype instead; a field specification written as an object literal
    has no such key, and that assignment is not modelled.) *)
Fixpoint set_prop {A : Type} (o : Obj A) (key : string) (v : A) : Obj A :=
  match o with
  | [] => [(key, v)]
  | (k, w) :: rest =>
      if k =? key then (k, v) :: rest else (k, w) :: set_prop rest key v
  end.

Definition keys {A : Type} (o : Obj A) : list string := List.map fst o.

(** [delete o[key]] *)
Definition delete_prop {A : Type} (o : Obj A) (key : string) : Obj A :=
  List.filter (fun p => negb (fst p =? key)) o.

(** *** Inherited members

    What a value answers for a key that is not one of its own properties
    comes from its prototype chain, which the kind of the value decides:
    [Object.prototype] for plain objects, [Array.prototype] and then
    [Object.prototype] for arrays, and so on.  The host provides these
    members ([toString], [constructor], ...); built-in own properties that
    are not modelled here, such as the [name] of a function, are answered
    the same way. *)

Inductive Kind : Type :=
| KObject
| KArray
| KString
| KNumber
| KBoolean
| KFunction.

Class Host : Type := {
  inherited : Kind -> string -> option Val
}.

(** The value read when there is no own property: the inherited member,
    [undefined] when there is none. *)
Definition from_host {host : Host} (kind : Kind) (key : string) : Val :=
  match inherited kind key with
  | Some v => v
  | None => VUndefined
  end.

(** [o[key]] on a plain object. *)
Definition read {host : Host} (o : Obj Val) (key : string) : Val :=
  match lookup key o with
  | Some v => v
  | None => from_host KObject key
  end.

(** *** Array index keys

    A property key is an array index when it is the canonical decimal
    numeral of a natural number: ["0"], or digits with no leading zero. *)

Definition digit_of (c : ascii) : option nat :=
  let n := nat_of_ascii c in
  if ((48 <=? n) && (n <=? 57))%nat then Some (n - 48) else None.

Fixpoint digits_value (s : string) (acc : nat) : option nat :=
  match s with
  | EmptyString => Some acc
  | String c rest =>
      match digit_of c with
      | Some d => digits_value rest (10 * acc + d)
      | None => None
      end
  end.

Definition index_of_key (key : string) : option nat :=
  match key with
  | EmptyString => None
  | String "0" EmptyString => Some 0
  | String "0" _ => None
  | _ => digits_value key 0
  end.

End JS.

Import JS.

(** ** Computations: state and exceptions *)

Inductive Outcome (A : Type) : Type :=
| Returns (a : A)
| Throws (e : Exn).

Arguments Throws {A} e.

Section Computations.

Context {World : Type}.

Definition M (A : Type) : Type := World -> Outcome A * World.

Definition ret {A : Type} (a : A) : M A := fun w => (Returns a, w).

Definition throw {A : Type} (e : Exn) : M A := fun w => (Throws e, w).

Definition bind {A B : Type} (c : M A) (k : A -> M B) : M B :=
  fun w =>
    match c w with
    | (Returns a, w') => k a w'
    | (Throws e, w') => (Throws e, w')
    end.

End Computations.

Arguments M World A : clear implicits.

Notation "x <- c ;; k" := (bind c (fun x => k))
  (at level 61, c at next level, right associativity).

(** [for (const x of xs) ... push] style traversals reuse this: run [f] on
    every item from left to right and collect the results. *)
Fixpoint mapM {World A B : Type} (f : A -> M World B) (xs : list A)
  : M World (list B) :=
  match xs with
  | [] => ret []
  | x :: rest => y <- f x ;; ys <- mapM f rest ;; ret (y :: ys)
  end.

(** ** The library *)

Module C.

(** [Result<A>]: [{ok: true, value}] or [{ok: false, error}]. *)
Inductive Result : Type :=
| Ok (value : Val)
| Err (error : string).

Section Library.

Context {World : Type} {host : Host}.

#[local] Abbreviation M := (M World).

(** [x[key]] on an arbitrary value.  Reading a property of [undefined] or
    [null] raises a [TypeError]; arrays and strings answer to the index keys
    of their items and to [length]; every other key goes to the prototype
    chain, and reads as [undefined] when nothing there answers. *)
Definition get_prop (x : Val) (key : string) : M Val :=
  match x with
  | VUndefined =>
      throw (TypeError "Cannot read properties of undefined")
  | VNull =>
      throw (TypeError "Cannot read properties of null")
  | VBool _ => ret (from_host KBoolean key)
  | VNum _ => ret (from_host KNumber key)
  | VFun _ => ret (from_host KFunction key)
  | VStr s =>
      match index_of_key key with
      | Some i =>
          match String.get i s with
          | Some c => ret (VStr (String c EmptyString))
          | None => ret (from_host KString key)
          end
      | None =>
          if key =? "length" then ret (VNum (number_of_nat (String.length s)))
          else ret (from_host KString key)
      end
  | VArr items =>
      match index_of_key key with
      | Some i =>
          match nth_error items i with
          | Some v => ret v
          | None => ret (from_host KArray key)
          end
      | None =>
          if key =? "length" then ret (VNum (number_of_nat (List.length items)))
          else ret (from_host KArray key)
      end
  | VObj props => ret (read props key)
  end.

(** [mapResult(result, f)] *)
Definition mapResult (result : Result) (f : Val -> M Val) : M Result :=
  match result with
  | Ok value => b <- f value ;; ret (Ok b)
  | Err _ => ret result
  end.

(** [interface SerDe<X, A>] *)
Record SerDe : Type := Build_SerDe {
  encode : Val -> M Val;
  decode : Val -> M Result
}.

(** [class Codec<A, X>]: the constructor stores [repr], the getter [serde]
    returns it. *)
Record Codec : Type := new_Codec {
  serde : SerDe
}.

Definition toObject (this : Codec) (entity : Val) : M Val :=
  encode (serde this) entity.

Definition fromObject (this : Codec) (data : Val) : M Result :=
  decode (serde this) data.

(** [fromJSON(json)]: [JSON.parse] is the host's parser, a parameter here;
    on malformed text it throws a [SyntaxError]. *)
Definition fromJSON (JSON_parse : string -> M Val) (this : Codec)
  (json : string) : M Result :=
  data <- JSON_parse json ;;
  decode (serde this) data.

Definition sel (this : Codec) (extract : Val -> M Val) : Codec :=
  let encode := encode (serde this) in
  let decode := decode (serde this) in
  new_Codec {|
    encode := fun y => x <- extract y ;; encode x;
    decode := decode
  |}.

Definition filter (this : Codec) (error : string) (cond : Val -> M bool)
  : Codec :=
  let encode := encode (serde this) in
  let decode := decode (serde this) in
  new_Codec {|
    encode := encode;
    decode := fun data =>
      decoded <- decode data ;;
      match decoded with
      | Err _ => ret decoded
      | Ok value =>
          accepted <- cond value ;;
          if negb accepted then ret (Err error) else ret decoded
      end
  |}.

Definition map (this : Codec) (f : Val -> M Val) : Codec :=
  let encode := encode (serde this) in
  let decode := decode (serde this) in
  new_Codec {|
    encode := encode;
    decode := fun data => result <- decode data ;; mapResult result f
  |}.

(** *** Primitive codecs *)

Definition string : Codec :=
  new_Codec {|
    encode := fun s => ret s;
    decode := fun data =>
      if typeof data =? "string" then ret (Ok data)
      else ret (Err "expected string")
  |}.

Definition number : Codec :=
  new_Codec {|
    encode := fun s => ret s;
    decode := fun data =>
      if typeof data =? "number" then ret (Ok data)
      else ret (Err "expected number ")
  |}.

Definition boolean : Codec :=
  new_Codec {|
    encode := fun s => ret s;
    decode := fun data =>
      if typeof data =? "boolean" then ret (Ok data)
      else ret (Err "expected boolean")
  |}.

(** *** Arrays *)

(** The [for (const x of data)] loop of [decodeArray]; [value] is the
    array being filled by [push]. *)
Fixpoint decodeArray_loop (codec : Codec) (data : list Val)
  (value : list Val) : M Result :=
  match data with
  | [] => ret (Ok (VArr value))
  | x :: rest =>
      decoded <- decode (serde codec) x ;;
      match decoded with
      | Err _ => ret decoded
      | Ok v => decodeArray_loop codec rest (value ++ [v])
      end
  end.

Definition decodeArray (data : Val) (codec : Codec) : M Result :=
  if negb (isArray data) then ret (Err "expected array")
  else decodeArray_loop codec (items_of data) [].

(** [xs.map(x => codec.serde.encode(x))]; a value without a [map] method
    makes the call a [TypeError]. *)
Definition array (codec : Codec) : Codec :=
  new_Codec {|
    encode := fun xs =>
      match xs with
      | VArr items =>
          nodes <- mapM (fun x => encode (serde codec) x) items ;;
          ret (VArr nodes)
      | _ => throw (TypeError "xs.map is not a function")
      end;
    decode := fun data => decodeArray data codec
  |}.

(** *** Records *)

(** The [for (const key in codecs)] loop of [encodeRecord]. *)
Fixpoint encodeRecord_loop (x : Val) (codecs : Obj Codec) (res : Obj Val)
  : M Val :=
  match codecs with
  | [] => ret (VObj res)
  | (key, codec) :: rest =>
      v <- encode (serde codec) x ;;
      encodeRecord_loop x rest (set_prop res key v)
  end.

Definition encodeRecord (x : Val) (codecs : Obj Codec) : M Val :=
  encodeRecord_loop x codecs [].

(** The [for (const key in codecs)] loop of [decodeRecord]. *)
Fixpoint decodeRecord_loop (data : Val) (codecs : Obj Codec) (res : Obj Val)
  : M Result :=
  match codecs with
  | [] => ret (Ok (VObj res))
  | (key, codec) :: rest =>
      val <- get_prop data key ;;
      if negb (truthy val) then ret (Err ("missing field " ++ key))
      else
        decoded <- decode (serde codec) val ;;
        match decoded with
        | Err _ => ret decoded
        | Ok value => decodeRecord_loop data rest (set_prop res key value)
        end
  end.

Definition decodeRecord (data : Val) (codecs : Obj Codec) : M Result :=
  if negb (typeof data =? "object") then ret (Err "expected object")
  else decodeRecord_loop data codecs [].

Definition sameRecord (codecs : Obj Codec) : Codec :=
  new_Codec {|
    encode := fun x => encodeRecord x codecs;
    decode := fun data => decodeRecord data codecs
  |}.

(** The loop of [record] that fills [enlarged]. *)
Fixpoint enlarge (codecs : Obj Codec) (enlarged : Obj Codec) : Obj Codec :=
  match codecs with
  | [] => enlarged
  | (key, codec) :: rest =>
      enlarge rest (set_prop enlarged key (sel codec (fun r => get_prop r key)))
  end.

Definition record (codecs : Obj Codec) : Codec :=
  let enlarged := enlarge codecs [] in
  new_Codec {|
    encode := fun x => encodeRecord x enlarged;
    decode := fun data => decodeRecord data enlarged
  |}.

Definition mapRecord (codecs : Obj Codec) (f : Val -> M Val) : Codec :=
  map (sameRecord codecs) f.

End Library.

Arguments SerDe World : clear implicits.
Arguments Codec World : clear implicits.

End C.

Import C.

(** ** Notions used by the specification *)

Section Notions.

Context {World : Type} {host : Host}.

#[local] Abbreviation M := (M World).

(** [decode_items c xs w vs w']: starting in world [w], the decoder of [c]
    accepts the items [xs] one after the other, from left to right, with
    values [vs], and leaves the world [w']. *)
Inductive decode_items (c : Codec World)
  : list Val -> World -> list Val -> World -> Prop :=
| decode_items_nil : forall w, decode_items c [] w [] w
| decode_items_cons : forall x xs v vs w w1 w2,
    fromObject c x w = (Returns (Ok v), w1) ->
    decode_items c xs w1 vs w2 ->
    decode_items c (x :: xs) w (v :: vs) w2.

(** [decode_fields data codecs w res0 res w']: starting in world [w] with
    the partial record [res0], every field of [codecs], in enumeration
    order, is read from [data], is truthy and is accepted by its decoder;
    [res] is the record assembled and [w'] the world left. *)
Inductive decode_fields (data : Val)
  : Obj (Codec World) -> World -> Obj Val -> Obj Val -> World -> Prop :=
| decode_fields_nil : forall w res, decode_fields data [] w res res w
| decode_fields_cons : forall key codec rest val value w w1 w2 w3 res0 res,
    get_prop data key w = (Returns val, w1) ->
    truthy val = true ->
    fromObject codec val w1 = (Returns (Ok value), w2) ->
    decode_fields data rest w2 (set_prop res0 key value) res w3 ->
    decode_fields data ((key, codec) :: rest) w res0 res w3.

(** [field_fails data key codec w r w']: in world [w] the field [key] of
    [data] is rejected with the failure [r]: its entry is falsy, or its
    decoder fails. *)
Inductive field_fails (data : Val) (key : String.string) (codec : Codec World)
  : World -> Result -> World -> Prop :=
| field_missing : forall val w w1,
    get_prop data key w = (Returns val, w1) ->
    truthy val = false ->
    field_fails data key codec w (Err ("missing field " ++ key)) w1
| field_rejected : forall val error w w1 w2,
    get_prop data key w = (Returns val, w1) ->
    truthy val = true ->
    fromObject codec val w1 = (Returns (Err error), w2) ->
    field_fails data key codec w (Err error) w2.

(** [encode_fields x codecs w res0 res w']: starting in world [w] with the
    partial node [res0], the encoder of every field of [codecs], in
    enumeration order, returns on [x]; [res] is the node assembled and [w']
    the world left. *)
Inductive encode_fields (x : Val)
  : Obj (Codec World) -> World -> Obj Val -> Obj Val -> World -> Prop :=
| encode_fields_nil : forall w res, encode_fields x [] w res res w
| encode_fields_cons : forall key codec rest v w w1 w2 res0 res,
    toObject codec x w = (Returns v, w1) ->
    encode_fields x rest w1 (set_prop res0 key v) res w2 ->
    encode_fields x ((key, codec) :: rest) w res0 res w2.

(** What [record] stores in [enlarged] for one field. *)
Definition enlarged_field (p : String.string * Codec World)
  : String.string * Codec World :=
  (fst p, sel (snd p) (fun r => get_prop r (fst p))).

End Notions.

(** ** Codecs built from the combinators, and their values *)

(** How a codec that encodes and decodes the same type is put together:
    from the primitive codecs with [array], [record], [map] followed by
    [sel] (as in [number.map(n => new Int(n)).sel(x => x.num)]), and
    [mapRecord] over selected fields.  Callbacks are pure here. *)
Inductive Shape : Type :=
| SString
| SNumber
| SBoolean
| SArray (item : Shape)
| SRecord (fields : Obj Shape)
| SMapped (inner : Shape) (extract : Val -> Val) (f : Val -> Val)
| SMapRecord (fields : Obj ((Val -> Val) * Shape)) (f : Val -> Val).

Fixpoint codec_of {World : Type} {host : Host} (s : Shape) : Codec World :=
  match s with
  | SString => string
  | SNumber => number
  | SBoolean => boolean
  | SArray item => array (codec_of item)
  | SRecord fields =>
      record (List.map (fun p => (fst p, codec_of (snd p))) fields)
  | SMapped inner extract f =>
      sel (map (codec_of inner) (fun a => ret (f a)))
          (fun y => ret (extract y))
  | SMapRecord fields f =>
      mapRecord
        (List.map (fun p => (fst p,
                             sel (codec_of (snd (snd p)))
                                 (fun y => ret (fst (snd p) y)))) fields)
        (fun a => ret (f a))
  end.

(** [v[key]] for the values of a record. *)
Definition field_of {host : Host} (v : Val) (key : String.string) : Val :=
  match v with
  | VObj o => read o key
  | _ => VUndefined
  end.

(** The tree that encoding [v] builds. *)
Fixpoint tree {host : Host} (s : Shape) (v : Val) : Val :=
  match s with
  | SString | SNumber | SBoolean => v
  | SArray item => VArr (List.map (tree item) (items_of v))
  | SRecord fields =>
      VObj (List.map (fun p => (fst p, tree (snd p) (field_of v (fst p))))
                     fields)
  | SMapped inner extract f => tree inner (extract v)
  | SMapRecord fields f =>
      VObj (List.map (fun p => (fst p, tree (snd (snd p)) (fst (snd p) v)))
                     fields)
  end.

(** The value that decoding [tree s v] builds. *)
Fixpoint back {host : Host} (s : Shape) (v : Val) : Val :=
  match s with
  | SString | SNumber | SBoolean => v
  | SArray item => VArr (List.map (back item) (items_of v))
  | SRecord fields =>
      VObj (List.map (fun p => (fst p, back (snd p) (field_of v (fst p))))
                     fields)
  | SMapped inner extract f => f (back inner (extract v))
  | SMapRecord fields f =>
      f (VObj (List.map (fun p => (fst p, back (snd (snd p)) (fst (snd p) v)))
                        fields))
  end.

Inductive opt_rel {A : Type} (R : A -> A -> Prop)
  : option A -> option A -> Prop :=
| opt_rel_none : opt_rel R None None
| opt_rel_some : forall a b, R a b -> opt_rel R (Some a) (Some b).

(** Observational equality: the same primitive, arrays with equal items in
    the same order, objects with the same own keys bound to equal values,
    in whatever order the keys are enumerated. *)
Inductive obs_eq : Val -> Val -> Prop :=
| obs_eq_undefined : obs_eq VUndefined VUndefined
| obs_eq_null : obs_eq VNull VNull
| obs_eq_bool : forall b, obs_eq (VBool b) (VBool b)
| obs_eq_num : forall n, obs_eq (VNum n) (VNum n)
| obs_eq_str : forall s, obs_eq (VStr s) (VStr s)
| obs_eq_fun : forall name, obs_eq (VFun name) (VFun name)
| obs_eq_arr : forall xs ys, Forall2 obs_eq xs ys -> obs_eq (VArr xs) (VArr ys)
| obs_eq_obj : forall o1 o2,
    (forall k, opt_rel obs_eq (lookup k o1) (lookup k o2)) ->
    obs_eq (VObj o1) (VObj o2).

(** The values of the type a codec of shape [s] encodes: primitives of the
    right kind; arrays of values of the item shape; objects with exactly
    the declared fields, each holding a value of its shape whose encoding is
    truthy; for [map] and [mapRecord], values whose selected parts are of
    the inner shapes and that [f] rebuilds. *)
Fixpoint conforms {host : Host} (s : Shape) (v : Val) : Prop :=
  match s with
  | SString => typeof v = "string"
  | SNumber => typeof v = "number"
  | SBoolean => typeof v = "boolean"
  | SArray item =>
      isArray v = true /\
      (fix all (xs : list Val) : Prop :=
         match xs with
         | [] => True
         | x :: rest => conforms item x /\ all rest
         end) (items_of v)
  | SRecord fields =>
      NoDup (keys fields) /\
      (exists o, v = VObj o /\ forall k, In k (keys o) <-> In k (keys fields)) /\
      (fix all (fs : Obj Shape) : Prop :=
         match fs with
         | [] => True
         | (k, s') :: rest =>
             (conforms s' (field_of v k) /\
              truthy (tree s' (field_of v k)) = true) /\ all rest
         end) fields
  | SMapped inner extract f =>
      conforms inner (extract v) /\
      obs_eq (f (back inner (extract v))) v
  | SMapRecord fields f =>
      NoDup (keys fields) /\
      (fix all (fs : Obj ((Val -> Val) * Shape)) : Prop :=
         match fs with
         | [] => True
         | (k, (g, s')) :: rest =>
             (conforms s' (g v) /\ truthy (tree s' (g v)) = true) /\ all rest
         end) fields /\
      obs_eq (back (SMapRecord fields f) v) v
  end.

(** [fromObject(toObject(v))] *)
Definition round_trip {World : Type} (c : Codec World) (v : Val)
  : M World Result :=
  node <- toObject c v ;; fromObject c node.

(** The steps of a round trip: encoding a conforming value builds [tree],
    decoding that tree builds [back], and [back] is the value again. *)
Definition trips (World : Type) {host : Host} (s : Shape) : Prop :=
  forall (v : Val) (w : World),
    conforms s v ->
    toObject (codec_of s) v w = (Returns (tree s v), w) /\
    fromObject (codec_of s) (tree s v) w = (Returns (Ok (back s v)), w) /\
    obs_eq (back s v) v.

(** ** Instances used to run the library *)

(** Doubles for small integers. *)
Definition num (z : Z) : Val := VNum (binary_normalize 53 1024 z 0 false).

(** A world that records what callbacks and decoders were handed. *)
Definition Log : Type := list Val.

(** [spy c] decodes like [c] after recording the node it was given. *)
Definition spy (c : Codec Log) : Codec Log :=
  new_Codec {|
    encode := encode (serde c);
    decode := fun data w => decode (serde c) data (w ++ [data])%list
  |}.

(** A callback that records its argument and returns [f a]. *)
Definition noting (f : Val -> Val) : Val -> M Log Val :=
  fun a w => (Returns (f a), (w ++ [a])%list).

(** A predicate callback that records its argument. *)
Definition noting_cond (p : Val -> bool) : Val -> M Log bool :=
  fun a w => (Returns (p a), (w ++ [a])%list).

(** The members of [Object.prototype], which every object, array, string,
    number, boolean and function inherits. *)
Definition Object_prototype_members : list String.string :=
  ["constructor"; "hasOwnProperty"; "isPrototypeOf"; "propertyIsEnumerable";
   "toLocaleString"; "toString"; "valueOf"; "__defineGetter__";
   "__defineSetter__"; "__lookupGetter__"; "__lookupSetter__"].

(** A host that answers with the members of [Object.prototype]: functions,
    and under [__proto__] the prototype itself.  The members that the other
    built-in prototypes add (the methods of arrays, strings, numbers and
    functions) are left out; it instantiates the host parameter on reads
    where it agrees with the engines. *)
Definition standard_host : Host := {|
  inherited := fun kind key =>
    if key =? "__proto__" then
      Some match kind with
           | KArray => VArr []
           | _ => VObj []
           end
    else if existsb (String.eqb key) Object_prototype_members then
      Some (VFun key)
    else None
|}.

(** A parser for the three literal names of JSON; every other text is a
    syntax error.  It instantiates the parser parameter of [fromJSON] on
    texts where it agrees with [JSON.parse]. *)
Definition parse_literal_names {World : Type} (json : String.string)
  : M World Val :=
  if json =? "true" then ret (VBool true)
  else if json =? "false" then ret (VBool false)
  else if json =? "null" then ret VNull
  else throw (SyntaxError "Unexpected token in JSON").

(** ** Notions used for the rest of the library *)

Section MoreNotions.

Context {World : Type} {host : Host}.

(** [encode_items c xs w nodes w']: starting in world [w], the encoder of
    [c] returns on the items [xs] one after the other, from left to right,
    with the trees [nodes], and leaves the world [w']. *)
Inductive encode_items (c : Codec World)
  : list Val -> World -> list Val -> World -> Prop :=
| encode_items_nil : forall w, encode_items c [] w [] w
| encode_items_cons : forall x xs n ns w w1 w2,
    toObject c x w = (Returns n, w1) ->
    encode_items c xs w1 ns w2 ->
    encode_items c (x :: xs) w (n :: ns) w2.

(** The decoder of [c] answers every node with a [Result]: it never
    throws. *)
Definition decode_returns (c : Codec World) : Prop :=
  forall d w, exists r w', fromObject c d w = (Returns r, w').

(** One callback after the other. *)
Definition and_then (f g : Val -> M World Val) : Val -> M World Val :=
  fun a => b <- f a ;; g b.

(** One of the three primitive codecs. *)
Definition primitive (c : Codec World) : Prop :=
  c = string \/ c = number \/ c = boolean.

End MoreNotions.

(** * Properties *)

#[local] Open Scope list_scope.

(** ** The monad *)

Section MonadLaws.

Context {World : Type} {host : Host}.

Lemma bind_returns {A B : Type} (c : M World A) (k : A -> M World B)
  (w w' : World) (a : A) :
  c w = (Returns a, w') -> bind c k w = k a w'.
Proof. intros H. unfold bind. now rewrite H. Qed.

Lemma bind_throws {A B : Type} (c : M World A) (k : A -> M World B)
  (w w' : World) (e : Exn) :
  c w = (Throws e, w') -> bind c k w = (Throws e, w').
Proof. intros H. unfold bind. now rewrite H. Qed.

Lemma bind_ret {A B : Type} (a : A) (k : A -> M World B) (w : World) :
  bind (ret a) k w = k a w.
Proof. reflexivity. Qed.

Lemma bind_assoc {A B D : Type} (c : M World A) (k : A -> M World B)
  (h : B -> M World D) (w : World) :
  bind (bind c k) h w = bind c (fun a => bind (k a) h) w.
Proof. unfold bind. destruct (c w) as [[a | e] w']; reflexivity. Qed.

End MonadLaws.

(** ** Primitive codecs *)

Section Primitives.

Context {World : Type} {host : Host}.

(** C9. The primitive codecs [string], [number] and [boolean] encode every
    value as itself; on a node of the matching runtime kind their decoders
    succeed with the node unchanged, and on a node of any other kind they
    fail with "expected string", "expected number " and "expected boolean":
    no node is coerced.  In particular [true] is not a number and ["1"] is
    not a boolean. *)
Theorem primitive_codecs :
  (forall (v : Val) (w : World),
      toObject string v w = (Returns v, w) /\
      toObject number v w = (Returns v, w) /\
      toObject boolean v w = (Returns v, w)) /\
  (forall (d : Val) (w : World),
      fromObject string d w =
        (Returns match d with
                 | VStr s => Ok (VStr s)
                 | _ => Err "expected string"
                 end, w) /\
      fromObject number d w =
        (Returns match d with
                 | VNum n => Ok (VNum n)
                 | _ => Err "expected number "
                 end, w) /\
      fromObject boolean d w =
        (Returns match d with
                 | VBool b => Ok (VBool b)
                 | _ => Err "expected boolean"
                 end, w)) /\
  (forall w : World,
      fromObject number (VBool true) w = (Returns (Err "expected number "), w) /\
      fromObject boolean (VStr "1") w = (Returns (Err "expected boolean"), w)).
Proof.
  split; [| split].
  - intros v w. repeat split.
  - intros d w. repeat split; destruct d; reflexivity.
  - intros w. split; reflexivity.
Qed.

End Primitives.

(** ** Transformations and filters *)

Section Transform.

Context {World : Type} {host : Host}.

Variable c : Codec World.

(** C7. Decoding with [map c f]: when the decoder of [c] fails, the result
    is that failure, with its message, and the world is the one [c] left,
    whatever [f] is, so [f] was not run; when it succeeds with [a] and [f]
    returns [b] on [a], the result is the success [b].  Encoding with
    [map c f] is encoding with [c]. *)
Theorem map_spec (f : Val -> M World Val) (d : Val) (w : World) :
  (forall m w',
      fromObject c d w = (Returns (Err m), w') ->
      fromObject (map c f) d w = (Returns (Err m), w')) /\
  (forall a w1 b w2,
      fromObject c d w = (Returns (Ok a), w1) ->
      f a w1 = (Returns b, w2) ->
      fromObject (map c f) d w = (Returns (Ok b), w2)) /\
  toObject (map c f) = toObject c.
Proof.
  split; [| split].
  - intros m w' H. unfold fromObject in *. cbn.
    now rewrite (bind_returns _ _ _ H).
  - intros a w1 b w2 H Hf. unfold fromObject in *. cbn.
    rewrite (bind_returns _ _ _ H). cbn.
    now rewrite (bind_returns _ _ _ Hf).
  - reflexivity.
Qed.

(** C8. Decoding with [filter c error cond]: a failure of [c] is returned as
    it is and leaves the world [c] left, whatever [cond] is; a success of
    [c] that [cond] rejects becomes the failure [error]; a success that
    [cond] accepts is returned as it is. *)
Theorem filter_spec (error : String.string) (cond : Val -> M World bool)
  (d : Val) (w : World) :
  (forall m w',
      fromObject c d w = (Returns (Err m), w') ->
      fromObject (filter c error cond) d w = (Returns (Err m), w')) /\
  (forall a w1 w2,
      fromObject c d w = (Returns (Ok a), w1) ->
      cond a w1 = (Returns false, w2) ->
      fromObject (filter c error cond) d w = (Returns (Err error), w2)) /\
  (forall a w1 w2,
      fromObject c d w = (Returns (Ok a), w1) ->
      cond a w1 = (Returns true, w2) ->
      fromObject (filter c error cond) d w = (Returns (Ok a), w2)).
Proof.
  split; [| split].
  - intros m w' H. unfold fromObject in *. cbn.
    now rewrite (bind_returns _ _ _ H).
  - intros a w1 w2 H Hc. unfold fromObject in *. cbn.
    rewrite (bind_returns _ _ _ H). cbn.
    now rewrite (bind_returns _ _ _ Hc).
  - intros a w1 w2 H Hc. unfold fromObject in *. cbn.
    rewrite (bind_returns _ _ _ H). cbn.
    now rewrite (bind_returns _ _ _ Hc).
Qed.

End Transform.

(** ** Arrays *)

Section Arrays.

Context {World : Type} {host : Host}.

Variable c : Codec World.

Lemma decodeArray_loop_accepts (xs vs : list Val) (w w' : World) :
  decode_items c xs w vs w' ->
  forall value,
    decodeArray_loop c xs value w = (Returns (Ok (VArr (value ++ vs))), w').
Proof.
  induction 1 as [w | x xs v vs w w1 w2 Hx _ IH]; intros value; cbn.
  - now rewrite app_nil_r.
  - unfold fromObject in Hx. rewrite (bind_returns _ _ _ Hx).
    rewrite IH. now rewrite <- app_assoc.
Qed.

Lemma decodeArray_loop_rejects (pre post vs : list Val) (x : Val)
  (m : String.string) (w w1 w2 : World) :
  decode_items c pre w vs w1 ->
  fromObject c x w1 = (Returns (Err m), w2) ->
  forall value,
    decodeArray_loop c (pre ++ x :: post) value w = (Returns (Err m), w2).
Proof.
  induction 1 as [w | y ys v vs w w1 w3 Hy _ IH]; intros Hx value; cbn.
  - unfold fromObject in Hx. now rewrite (bind_returns _ _ _ Hx).
  - unfold fromObject in Hy. rewrite (bind_returns _ _ _ Hy).
    now apply IH.
Qed.

(** A successful array decode went through every item in order. *)
Lemma decodeArray_loop_inv (xs : list Val) :
  forall value r w w',
    decodeArray_loop c xs value w = (Returns (Ok r), w') ->
    exists vs, r = VArr (value ++ vs) /\ decode_items c xs w vs w'.
Proof.
  induction xs as [| x xs IH]; intros value r w w' H; cbn in H.
  - injection H as <- <-. exists []. split.
    + now rewrite app_nil_r.
    + constructor.
  - unfold bind in H.
    destruct (decode (serde c) x w) as [[[v | m] | e] w1] eqn:Hx;
      try discriminate.
    apply IH in H as (vs & -> & Hvs).
    exists (v :: vs). split.
    + now rewrite <- app_assoc.
    + econstructor; eauto.
Qed.

Lemma array_decode_accepts (xs vs : list Val) (w w' : World) :
  decode_items c xs w vs w' ->
  fromObject (array c) (VArr xs) w = (Returns (Ok (VArr vs)), w').
Proof.
  intros H.
  change (decodeArray_loop c xs [] w = (Returns (Ok (VArr vs)), w')).
  now rewrite (decodeArray_loop_accepts H).
Qed.

(** C6. The decoder of [array c] fails with "expected array" on every node
    that is not an array.  On an array it runs the decoder of [c] on the
    items from left to right: if the items [pre] are accepted and the next
    item [x] fails, the result is that failure as it is and the world is
    the one left by decoding [x], whatever items [post] follow, so none of
    them is decoded; if all items are accepted, the result is the array of
    their values in the order of the input. *)
Theorem array_decode_spec :
  (forall d w,
      isArray d = false ->
      fromObject (array c) d w = (Returns (Err "expected array"), w)) /\
  (forall pre x post vs m w w1 w2,
      decode_items c pre w vs w1 ->
      fromObject c x w1 = (Returns (Err m), w2) ->
      fromObject (array c) (VArr (pre ++ x :: post)) w
      = (Returns (Err m), w2)) /\
  (forall xs vs w w',
      decode_items c xs w vs w' ->
      fromObject (array c) (VArr xs) w = (Returns (Ok (VArr vs)), w')).
Proof.
  split; [| split].
  - intros d w H. destruct d; try discriminate; reflexivity.
  - intros pre x post vs m w w1 w2 Hpre Hx.
    change (decodeArray_loop c (pre ++ x :: post) [] w = (Returns (Err m), w2)).
    eapply decodeArray_loop_rejects; eassumption.
  - intros xs vs w w' H. now apply array_decode_accepts.
Qed.

End Arrays.

(** ** Objects as property lists *)

Section Properties.

Context {A : Type}.

Lemma lookup_not_in (key : String.string) (o : Obj A) :
  ~ In key (keys o) -> lookup key o = None.
Proof.
  induction o as [| [k v] o IH]; cbn; intros H; [reflexivity |].
  destruct (String.eqb_spec k key) as [-> | _].
  - exfalso. apply H. now left.
  - apply IH. intros Hin. apply H. now right.
Qed.

Lemma lookup_in (key : String.string) (o : Obj A) :
  In key (keys o) -> exists v, lookup key o = Some v.
Proof.
  induction o as [| [k v] o IH]; cbn; intros H; [contradiction |].
  destruct (String.eqb_spec k key) as [-> | Hne].
  - now exists v.
  - destruct H as [H | H]; [contradiction | now apply IH].
Qed.

Lemma lookup_some_in (key : String.string) (o : Obj A) (v : A) :
  lookup key o = Some v -> In key (keys o).
Proof.
  induction o as [| [k x] o IH]; cbn; intros H; [discriminate |].
  destruct (String.eqb_spec k key) as [-> | _]; [now left | right; auto].
Qed.

Lemma set_prop_fresh (o : Obj A) (key : String.string) (v : A) :
  ~ In key (keys o) -> set_prop o key v = o ++ [(key, v)].
Proof.
  induction o as [| [k x] o IH]; cbn; intros H; [reflexivity |].
  destruct (String.eqb_spec k key) as [-> | _].
  - exfalso. apply H. now left.
  - rewrite IH; [reflexivity |]. intros Hin. apply H. now right.
Qed.

Lemma keys_set_prop (o : Obj A) (key : String.string) (v : A) :
  forall k, In k (keys (set_prop o key v)) <-> k = key \/ In k (keys o).
Proof.
  induction o as [| [k' x] o IH]; cbn; intros k.
  - intuition.
  - destruct (String.eqb_spec k' key) as [-> | Hne]; cbn.
    + intuition.
    + rewrite IH. intuition.
Qed.

Lemma keys_app (o1 o2 : Obj A) : keys (o1 ++ o2) = keys o1 ++ keys o2.
Proof. unfold keys. apply map_app. Qed.

(** In a list of distinct keys, a key is not among those before it. *)
Lemma distinct_fresh (before after : list String.string) (key : String.string) :
  NoDup (before ++ key :: after) -> ~ In key before.
Proof.
  intros H Hin. apply NoDup_remove_2 in H. apply H.
  apply in_or_app. now left.
Qed.


Lemma lookup_app_fresh (key : String.string) (o1 o2 : Obj A) :
  ~ In key (keys o1) -> lookup key (o1 ++ o2) = lookup key o2.
Proof.
  induction o1 as [| [k x] o1 IH]; cbn; intros H; [reflexivity |].
  destruct (String.eqb_spec k key) as [-> | _].
  - exfalso. apply H. now left.
  - apply IH. intros Hin. apply H. now right.
Qed.

Lemma lookup_delete_other (key k : String.string) (o : Obj A) :
  k <> key -> lookup k (delete_prop o key) = lookup k o.
Proof.
  intros Hne. induction o as [| [k' x] o IH]; cbn; [reflexivity |].
  destruct (String.eqb_spec k' key) as [-> | Hk]; cbn.
  - destruct (String.eqb_spec key k) as [E | _]; [congruence | exact IH].
  - destruct (String.eqb_spec k' k); [reflexivity | exact IH].
Qed.

Lemma lookup_delete_same (key : String.string) (o : Obj A) :
  lookup key (delete_prop o key) = None.
Proof.
  induction o as [| [k' x] o IH]; cbn; [reflexivity |].
  destruct (String.eqb_spec k' key) as [-> | Hk]; cbn; [exact IH |].
  destruct (String.eqb_spec k' key); [contradiction | exact IH].
Qed.

End Properties.

(** ** Records: the loops *)

Section RecordLoops.

Context {World : Type} {host : Host}.

#[local] Abbreviation Fields := (Obj (Codec World)).

Lemma keys_enlarged (fs : Fields) : keys (List.map enlarged_field fs) = keys fs.
Proof.
  unfold keys. rewrite List.map_map. apply List.map_ext. now intros [k c].
Qed.

(** With pairwise distinct keys, [enlarged] lists the fields in the order
    of [codecs]. *)
Lemma enlarge_distinct (fs : Fields) :
  forall acc : Fields,
    NoDup (keys acc ++ keys fs) ->
    enlarge fs acc = acc ++ List.map enlarged_field fs.
Proof.
  induction fs as [| [k c] fs IH]; intros acc H; cbn.
  - now rewrite app_nil_r.
  - cbn in H. rewrite set_prop_fresh.
    + rewrite IH.
      * now rewrite <- app_assoc.
      * rewrite keys_app. cbn. now rewrite <- app_assoc.
    + now apply distinct_fresh in H.
Qed.

Lemma enlarge_record (fs : Fields) :
  NoDup (keys fs) -> enlarge fs [] = List.map enlarged_field fs.
Proof. intros H. now rewrite enlarge_distinct. Qed.

(** Whatever the keys, the first field declared stays first. *)
Lemma enlarge_head (fs : Fields) :
  forall (k : String.string) (c : Codec World) (acc : Fields),
    exists c' rest, enlarge fs ((k, c) :: acc) = (k, c') :: rest.
Proof.
  induction fs as [| [k' c'] fs IH]; intros k c acc; cbn.
  - now exists c, acc.
  - destruct (String.eqb_spec k k'); apply IH.
Qed.

Lemma enlarge_keys (fs : Fields) :
  forall (acc : Fields) (k : String.string),
    In k (keys (enlarge fs acc)) <-> In k (keys acc) \/ In k (keys fs).
Proof.
  induction fs as [| [k' c'] fs IH]; intros acc k.
  - cbn. intuition.
  - cbn [enlarge]. rewrite IH, keys_set_prop. cbn. intuition.
Qed.

(** The decode side of an enlarged field is the field's own decoder. *)
Lemma decodeRecord_loop_enlarged (data : Val) (fs : Fields) :
  forall res w,
    decodeRecord_loop data (List.map enlarged_field fs) res w
    = decodeRecord_loop data fs res w.
Proof.
  induction fs as [| [k c] fs IH]; intros res w; cbn; [reflexivity |].
  unfold bind. destruct (get_prop data k w) as [[val | e] w1]; [| reflexivity].
  destruct (truthy val); cbn; [| reflexivity].
  destruct (decode (serde c) val w1) as [[[v | m] | e] w2]; try reflexivity.
  apply IH.
Qed.

Lemma record_decode (fs : Fields) (data : Val) (w : World) :
  NoDup (keys fs) ->
  fromObject (record fs) data w = decodeRecord data fs w.
Proof.
  intros H. unfold fromObject, record, decodeRecord. cbn.
  rewrite enlarge_record by assumption.
  destruct (negb (typeof data =? "object")); [reflexivity |].
  apply decodeRecord_loop_enlarged.
Qed.

Lemma record_encode (fs : Fields) (x : Val) (w : World) :
  NoDup (keys fs) ->
  toObject (record fs) x w = encodeRecord x (List.map enlarged_field fs) w.
Proof.
  intros H. unfold toObject, record. cbn. now rewrite enlarge_record.
Qed.

Lemma decodeRecord_loop_accepts (data : Val) (fs : Fields) (res0 res : Obj Val)
  (w w' : World) :
  decode_fields data fs w res0 res w' ->
  decodeRecord_loop data fs res0 w = (Returns (Ok (VObj res)), w').
Proof.
  induction 1 as [w res | k c rest val v w w1 w2 w3 res0 res Hget Ht Hd _ IH];
    cbn; [reflexivity |].
  rewrite (bind_returns _ _ _ Hget). rewrite Ht. cbn.
  unfold fromObject in Hd. now rewrite (bind_returns _ _ _ Hd).
Qed.

Lemma decodeRecord_loop_rejects (data : Val) (pre post : Fields)
  (k : String.string) (c : Codec World) (res0 res : Obj Val) (r : Result)
  (w w1 w2 : World) :
  decode_fields data pre w res0 res w1 ->
  field_fails data k c w1 r w2 ->
  decodeRecord_loop data (pre ++ (k, c) :: post) res0 w = (Returns r, w2).
Proof.
  induction 1 as [w res | k' c' rest val v w w1 w3 w4 res0 res Hget Ht Hd _ IH];
    intros Hf; cbn.
  - destruct Hf as [val w w1 Hget Ht | val m w w1 w2 Hget Ht Hd].
    + rewrite (bind_returns _ _ _ Hget). now rewrite Ht.
    + rewrite (bind_returns _ _ _ Hget). rewrite Ht. cbn.
      unfold fromObject in Hd. now rewrite (bind_returns _ _ _ Hd).
  - rewrite (bind_returns _ _ _ Hget). rewrite Ht. cbn.
    unfold fromObject in Hd. rewrite (bind_returns _ _ _ Hd).
    now apply IH.
Qed.

(** A successful record decode accepted every field in order. *)
Lemma decodeRecord_loop_inv (data : Val) (fs : Fields) :
  forall res0 r w w',
    decodeRecord_loop data fs res0 w = (Returns (Ok r), w') ->
    exists res, r = VObj res /\ decode_fields data fs w res0 res w'.
Proof.
  induction fs as [| [k c] fs IH]; intros res0 r w w' H; cbn in H.
  - injection H as <- <-. exists res0. split; [reflexivity | constructor].
  - unfold bind in H.
    destruct (get_prop data k w) as [[val | e] w1] eqn:Hget; [| discriminate].
    destruct (truthy val) eqn:Ht; cbn in H; [| discriminate].
    destruct (decode (serde c) val w1) as [[[v | m] | e] w2] eqn:Hd;
      try discriminate.
    apply IH in H as (res & -> & Hres).
    exists res. split; [reflexivity |]. econstructor; eauto.
Qed.

Lemma decode_fields_keys (data : Val) (fs : Fields) (res0 res : Obj Val)
  (w w' : World) :
  decode_fields data fs w res0 res w' ->
  NoDup (keys res0 ++ keys fs) ->
  keys res = keys res0 ++ keys fs.
Proof.
  induction 1 as [w res | k c rest val v w w1 w2 w3 res0 res _ _ _ _ IH];
    cbn; intros Hnd.
  - now rewrite app_nil_r.
  - assert (Hk : ~ In k (keys res0)).
    { now apply distinct_fresh in Hnd. }
    rewrite (set_prop_fresh _ _ _ Hk) in IH. rewrite keys_app in IH. cbn in IH.
    rewrite <- app_assoc in IH. cbn in IH. now apply IH.
Qed.

Lemma encodeRecord_loop_returns (x : Val) (fs : Fields) (res0 res : Obj Val)
  (w w' : World) :
  encode_fields x fs w res0 res w' ->
  encodeRecord_loop x fs res0 w = (Returns (VObj res), w').
Proof.
  induction 1 as [w res | k c rest v w w1 w2 res0 res He _ IH];
    cbn; [reflexivity |].
  unfold toObject in He. now rewrite (bind_returns _ _ _ He).
Qed.

Lemma encodeRecord_loop_inv (x : Val) (fs : Fields) :
  forall res0 r w w',
    encodeRecord_loop x fs res0 w = (Returns r, w') ->
    exists res, r = VObj res /\ encode_fields x fs w res0 res w'.
Proof.
  induction fs as [| [k c] fs IH]; intros res0 r w w' H; cbn in H.
  - injection H as <- <-. exists res0. split; [reflexivity | constructor].
  - unfold bind in H.
    destruct (encode (serde c) x w) as [[v | e] w1] eqn:He; [| discriminate].
    apply IH in H as (res & -> & Hres).
    exists res. split; [reflexivity |]. econstructor; eauto.
Qed.

Lemma encode_fields_keys (x : Val) (fs : Fields) (res0 res : Obj Val)
  (w w' : World) :
  encode_fields x fs w res0 res w' ->
  NoDup (keys res0 ++ keys fs) ->
  keys res = keys res0 ++ keys fs.
Proof.
  induction 1 as [w res | k c rest v w w1 w2 res0 res _ _ IH];
    cbn; intros Hnd.
  - now rewrite app_nil_r.
  - assert (Hk : ~ In k (keys res0)).
    { now apply distinct_fresh in Hnd. }
    rewrite (set_prop_fresh _ _ _ Hk) in IH. rewrite keys_app in IH. cbn in IH.
    rewrite <- app_assoc in IH. cbn in IH. now apply IH.
Qed.

End RecordLoops.

(** ** Records: decoding *)

Section RecordDecode.

Context {World : Type} {host : Host}.

#[local] Abbreviation Fields := (Obj (Codec World)).

Lemma decodeRecord_not_object (data : Val) (fs : Fields) (w : World) :
  typeof data <> "object"%string ->
  decodeRecord data fs w = (Returns (Err "expected object"), w).
Proof.
  intros H. unfold decodeRecord.
  destruct (String.eqb_spec (typeof data) "object"); [contradiction |].
  reflexivity.
Qed.

Lemma decodeRecord_object (data : Val) (fs : Fields) (w : World) :
  typeof data = "object"%string ->
  decodeRecord data fs w = decodeRecord_loop data fs [] w.
Proof. intros H. unfold decodeRecord. now rewrite H. Qed.

(** Two objects that, on every declared key, read the same entry or both
    read a falsy one are decoded alike. *)
Lemma decodeRecord_loop_agree (o o' : Obj Val) (fs : Fields) :
  (forall k, In k (keys fs) ->
             read o k = read o' k \/
             truthy (read o k) = false /\ truthy (read o' k) = false) ->
  forall res w,
    decodeRecord_loop (VObj o) fs res w = decodeRecord_loop (VObj o') fs res w.
Proof.
  induction fs as [| [k c] fs IH]; intros H res w; cbn; [reflexivity |].
  destruct (H k (or_introl eq_refl)) as [E | [F F']].
  - rewrite E. destruct (truthy (read o' k)); cbn; [| reflexivity].
    unfold bind. destruct (decode (serde c) (read o' k) w) as [[[v | m] | e] w1];
      try reflexivity.
    apply IH. intros k' Hk'. apply H. now right.
  - now rewrite F, F'.
Qed.

Lemma decode_fields_truthy (o : Obj Val) (fs : Fields) (res0 res : Obj Val)
  (w w' : World) :
  decode_fields (VObj o) fs w res0 res w' ->
  forall k, In k (keys fs) -> truthy (read o k) = true.
Proof.
  induction 1 as [w res | k' c rest val v w w1 w2 w3 res0 res Hget Ht _ _ IH];
    cbn; intros k Hk; [contradiction |].
  destruct Hk as [<- | Hk]; [| now apply IH].
  cbn in Hget. injection Hget as <- _. exact Ht.
Qed.

Lemma read_absent (o : Obj Val) (k : String.string) :
  lookup k o = None ->
  inherited KObject k = None ->
  read o k = VUndefined.
Proof. intros Hk Hi. unfold read, from_host. now rewrite Hk, Hi. Qed.



(** The part of C4 that the guard does establish. *)
Lemma record_decode_not_object (fs : Fields) (data : Val) (w : World) :
  typeof data <> "object"%string ->
  fromObject (record fs) data w = (Returns (Err "expected object"), w).
Proof.
  intros H. unfold fromObject, record. cbn.
  now apply decodeRecord_not_object.
Qed.

End RecordDecode.

(** ** Records: only the declared fields count *)

Section RecordFields.

Context {World : Type} {host : Host}.

#[local] Abbreviation Fields := (Obj (Codec World)).

Lemma encodeRecord_loop_agree (o o' : Obj Val) (fs : Fields) :
  (forall k, In k (keys fs) -> read o k = read o' k) ->
  forall res w,
    encodeRecord_loop (VObj o) (List.map enlarged_field fs) res w
    = encodeRecord_loop (VObj o') (List.map enlarged_field fs) res w.
Proof.
  induction fs as [| [k c] fs IH]; intros H res w; cbn; [reflexivity |].
  rewrite (H k (or_introl eq_refl)).
  unfold bind at 1 3. cbn.
  destruct (encode (serde c) (read o' k) w) as [[v | e] w1]; [| reflexivity].
  apply IH. intros k' Hk'. apply H. now right.
Qed.


End RecordFields.

(** ** Text input *)

Section Text.

Context {World : Type} {host : Host}.

Variable JSON_parse : String.string -> M World Val.

Lemma fromJSON_unfold (c : Codec World) (json : String.string) (w : World) :
  fromJSON JSON_parse c json w =
    match JSON_parse json w with
    | (Returns data, w') => fromObject c data w'
    | (Throws e, w') => (Throws e, w')
    end.
Proof. reflexivity. Qed.

(** C2, as the code has it.  [fromJSON] runs the parser and hands the tree
    to the decoder; nothing catches what the parser throws.  On a text the
    parser rejects, [fromJSON] throws the parser's exception and returns no
    [Result]; on a text the parser accepts, [fromJSON] is [fromObject] on
    the parsed tree. *)
Theorem fromJSON_uncaught (c : Codec World) (json : String.string)
  (w : World) :
  (forall e w',
      JSON_parse json w = (Throws e, w') ->
      fromJSON JSON_parse c json w = (Throws e, w')) /\
  (forall data w',
      JSON_parse json w = (Returns data, w') ->
      fromJSON JSON_parse c json w = fromObject c data w').
Proof.
  split; intros ? w' H; rewrite fromJSON_unfold; now rewrite H.
Qed.

End Text.

(** ** Round trips *)

Section ShapeInduction.

Variable P : Shape -> Prop.

Hypothesis P_string : P SString.
Hypothesis P_number : P SNumber.
Hypothesis P_boolean : P SBoolean.
Hypothesis P_array : forall item, P item -> P (SArray item).
Hypothesis P_record : forall fields,
    Forall (fun p => P (snd p)) fields -> P (SRecord fields).
Hypothesis P_mapped : forall inner extract f,
    P inner -> P (SMapped inner extract f).
Hypothesis P_mapRecord : forall fields f,
    Forall (fun p => P (snd (snd p))) fields -> P (SMapRecord fields f).

Lemma Shape_induction : forall s, P s.
Proof.
  fix IH 1. intros [| | | item | fields | inner extract f | fields f].
  - exact P_string.
  - exact P_number.
  - exact P_boolean.
  - apply P_array, IH.
  - apply P_record. induction fields as [| [k s] fields IHf]; constructor.
    + apply IH.
    + exact IHf.
  - apply P_mapped, IH.
  - apply P_mapRecord. induction fields as [| [k [g s]] fields IHf]; constructor.
    + apply IH.
    + exact IHf.
Qed.

End ShapeInduction.

Section Conforming.

Context {host : Host}.

Lemma conforms_array (item : Shape) (v : Val) :
  conforms (SArray item) v <->
  exists xs, v = VArr xs /\ Forall (conforms item) xs.
Proof.
  cbn. split.
  - intros [Ha Hall]. destruct v; try discriminate. exists items.
    split; [reflexivity |]. cbn in Hall. clear Ha.
    induction items as [| x xs IH]; constructor; [apply Hall | apply IH, Hall].
  - intros (xs & -> & Hall). split; [reflexivity |]. cbn.
    induction Hall; [exact I | now split].
Qed.

Lemma conforms_record (fields : Obj Shape) (v : Val) :
  conforms (SRecord fields) v <->
  NoDup (keys fields) /\
  (exists o, v = VObj o /\ forall k, In k (keys o) <-> In k (keys fields)) /\
  Forall (fun p => conforms (snd p) (field_of v (fst p)) /\
                   truthy (tree (snd p) (field_of v (fst p))) = true) fields.
Proof.
  cbn. split.
  - intros (Hnd & Ho & Hall). repeat split; try assumption.
    clear Hnd Ho. induction fields as [| [k s] fields IH]; constructor.
    + exact (proj1 Hall).
    + exact (IH (proj2 Hall)).
  - intros (Hnd & Ho & Hall). repeat split; try assumption.
    clear Hnd Ho. induction Hall as [| [k s] fields Hp _ IH]; [exact I |].
    now split.
Qed.

Lemma conforms_mapRecord (fields : Obj ((Val -> Val) * Shape))
  (f : Val -> Val) (v : Val) :
  conforms (SMapRecord fields f) v <->
  NoDup (keys fields) /\
  Forall (fun p => conforms (snd (snd p)) (fst (snd p) v) /\
                   truthy (tree (snd (snd p)) (fst (snd p) v)) = true) fields /\
  obs_eq (back (SMapRecord fields f) v) v.
Proof.
  cbn. split.
  - intros (Hnd & Hall & Ho). repeat split; try assumption.
    clear Hnd Ho. induction fields as [| [k [g s]] fields IH]; constructor.
    + exact (proj1 Hall).
    + exact (IH (proj2 Hall)).
  - intros (Hnd & Hall & Ho). repeat split; try assumption.
    clear Hnd Ho. induction Hall as [| [k [g s]] fields Hp _ IH]; [exact I |].
    now split.
Qed.

End Conforming.

Section PureRuns.

Context {World : Type} {host : Host}.

#[local] Abbreviation Fields := (Obj (Codec World)).

Lemma Forall2_map_same {A B D : Type} (R : B -> D -> Prop) (f : A -> B)
  (g : A -> D) (l : list A) :
  Forall (fun a => R (f a) (g a)) l -> Forall2 R (List.map f l) (List.map g l).
Proof. induction 1; cbn; constructor; assumption. Qed.

Lemma lookup_map_entry {A B : Type} (h : String.string * A -> B) (l : Obj A)
  (p : String.string * A) :
  NoDup (keys l) ->
  In p l ->
  lookup (fst p) (List.map (fun q => (fst q, h q)) l) = Some (h p).
Proof.
  induction l as [| [k a] l IH]; cbn; intros Hnd Hin; [contradiction |].
  inversion Hnd as [| ? ? Hk Hnd']; subst.
  destruct Hin as [<- | Hin]; cbn.
  - now rewrite String.eqb_refl.
  - destruct (String.eqb_spec k (fst p)) as [-> | _].
    + exfalso. apply Hk. now apply (in_map fst) in Hin.
    + now apply IH.
Qed.

Lemma keys_map_entry {A B : Type} (h : String.string * A -> B) (l : Obj A) :
  keys (List.map (fun q => (fst q, h q)) l) = keys l.
Proof. unfold keys. rewrite List.map_map. now apply List.map_ext. Qed.

Lemma mapM_pure {A B : Type} (f : A -> M World B) (g : A -> B) (xs : list A)
  (w : World) :
  Forall (fun x => f x w = (Returns (g x), w)) xs ->
  mapM f xs w = (Returns (List.map g xs), w).
Proof.
  induction 1 as [| x xs Hx _ IH]; cbn; [reflexivity |].
  rewrite (bind_returns _ _ _ Hx). now rewrite (bind_returns _ _ _ IH).
Qed.

Lemma decode_items_pure (c : Codec World) (t b : Val -> Val) (xs : list Val)
  (w : World) :
  Forall (fun x => fromObject c (t x) w = (Returns (Ok (b x)), w)) xs ->
  decode_items c (List.map t xs) w (List.map b xs) w.
Proof. induction 1; cbn; econstructor; eassumption. Qed.

Lemma encode_fields_pure (x : Val) (w : World) (fs : Fields) (t : Obj Val) :
  Forall2 (fun p q => fst p = fst q /\
                      toObject (snd p) x w = (Returns (snd q), w)) fs t ->
  forall res0,
    NoDup (keys res0 ++ keys fs) ->
    encode_fields x fs w res0 (res0 ++ t) w.
Proof.
  induction 1 as [| [k c] [k' v] fs t [Hk Hc] _ IH]; intros res0 Hnd.
  - rewrite app_nil_r. constructor.
  - cbn in Hk, Hc, Hnd. subst k'. econstructor; [exact Hc |].
    rewrite set_prop_fresh.
    + replace (res0 ++ (k, v) :: t) with ((res0 ++ [(k, v)]) ++ t)
        by now rewrite <- app_assoc.
      apply IH. rewrite keys_app. cbn. now rewrite <- app_assoc.
    + now apply distinct_fresh in Hnd.
Qed.

Lemma decode_fields_pure (data : Val) (w : World) (fs : Fields)
  (bs : Obj Val) :
  Forall2 (fun p q => fst p = fst q /\
                      exists n, get_prop data (fst p) w = (Returns n, w) /\
                                truthy n = true /\
                                fromObject (snd p) n w
                                = (Returns (Ok (snd q)), w)) fs bs ->
  forall res0,
    NoDup (keys res0 ++ keys fs) ->
    decode_fields data fs w res0 (res0 ++ bs) w.
Proof.
  induction 1 as [| [k c] [k' v] fs bs (Hk & n & Hget & Ht & Hd) _ IH];
    intros res0 Hnd.
  - rewrite app_nil_r. constructor.
  - cbn in Hk, Hget, Hd, Hnd. subst k'.
    econstructor; [exact Hget | exact Ht | exact Hd |].
    rewrite set_prop_fresh.
    + replace (res0 ++ (k, v) :: bs) with ((res0 ++ [(k, v)]) ++ bs)
        by now rewrite <- app_assoc.
      apply IH. rewrite keys_app. cbn. now rewrite <- app_assoc.
    + now apply distinct_fresh in Hnd.
Qed.

End PureRuns.

Section RoundTrip.

Context {World : Type} {host : Host}.


Lemma trips_primitive (s : Shape) :
  s = SString \/ s = SNumber \/ s = SBoolean -> trips World s.
Proof.
  intros [-> | [-> | ->]] v w Hv; cbn in Hv; destruct v; try discriminate;
    repeat split; constructor.
Qed.

Lemma trips_array (item : Shape) :
  trips World item -> trips World (SArray item).
Proof.
  intros IH v w Hv. apply conforms_array in Hv as (xs & -> & Hxs).
  assert (Hall : Forall (fun x =>
            toObject (codec_of item) x w = (Returns (tree item x), w) /\
            fromObject (codec_of item) (tree item x) w
            = (Returns (Ok (back item x)), w) /\
            obs_eq (back item x) x) xs).
  { eapply Forall_impl; [| exact Hxs]. intros x Hx. now apply IH. }
  repeat split.
  - unfold toObject. cbn.
    rewrite (@bind_returns _ _ _ _ _ w w (List.map (tree item) xs));
      [reflexivity |].
    apply mapM_pure. eapply Forall_impl; [| exact Hall].
    intros x Hx. apply Hx.
  - cbn [tree items_of]. apply array_decode_accepts.
    apply decode_items_pure. eapply Forall_impl; [| exact Hall].
    intros x Hx. apply Hx.
  - cbn. constructor. clear Hxs.
    induction Hall as [| x xs Hx _ IHx]; cbn; constructor; [apply Hx | apply IHx].
Qed.


Lemma trips_record (fields : Obj Shape) :
  Forall (fun p => trips World (snd p)) fields ->
  trips World (SRecord fields).
Proof.
  intros IH v w Hv.
  apply conforms_record in Hv as (Hnd & (o & -> & Hkeys) & Hall).
  set (fs := List.map (fun p => (fst p, codec_of (World := World) (snd p))) fields).
  assert (Hfs : NoDup (keys fs)).
  { unfold fs. now rewrite (keys_map_entry (fun q => codec_of (snd q))). }
  assert (Hstep : Forall (fun p =>
            toObject (codec_of (snd p)) (read o (fst p)) w
            = (Returns (tree (snd p) (read o (fst p))), w) /\
            fromObject (codec_of (snd p)) (tree (snd p) (read o (fst p))) w
            = (Returns (Ok (back (snd p) (read o (fst p)))), w) /\
            obs_eq (back (snd p) (read o (fst p))) (read o (fst p)) /\
            truthy (tree (snd p) (read o (fst p))) = true) fields).
  { rewrite Forall_forall in *. intros p Hp.
    destruct (Hall p Hp) as [Hc Ht]. cbn in Hc, Ht.
    destruct (IH p Hp _ w Hc) as (He & Hd & Ho). auto. }
  change (codec_of (SRecord fields)) with (record fs).
  cbn [tree back field_of].
  repeat split.
  - rewrite record_encode by assumption.
    apply encodeRecord_loop_returns.
    apply encode_fields_pure with (res0 := []).
    + unfold fs. rewrite List.map_map.
      apply Forall2_map_same. eapply Forall_impl; [| exact Hstep].
      intros p Hp. cbn. split; [reflexivity |]. apply Hp.
    + cbn. now rewrite keys_enlarged.
  - rewrite record_decode by assumption.
    rewrite decodeRecord_object by reflexivity.
    apply decodeRecord_loop_accepts.
    apply decode_fields_pure with (res0 := []); [| exact Hfs].
    unfold fs. apply Forall2_map_same.
    rewrite Forall_forall in *. intros p Hp. cbn.
    split; [reflexivity |].
    exists (tree (snd p) (read o (fst p))). 
    destruct (Hstep p Hp) as (He & Hd & Ho & Ht).
    repeat split; try assumption.
    unfold read at 1.
    now rewrite (lookup_map_entry (fun q => tree (snd q) (read o (fst q))) fields p Hnd Hp).
  - constructor. intros k.
    destruct (in_dec string_dec k (keys fields)) as [Hin | Hout].
    + apply in_map_iff in Hin as (p & <- & Hp).
      rewrite (lookup_map_entry (fun q => back (snd q) (read o (fst q))) fields p Hnd Hp).
      rewrite Forall_forall in Hstep.
      destruct (Hstep p Hp) as (_ & _ & Ho & _).
      destruct (lookup_in (fst p) o) as [x Hx].
      { apply Hkeys. exact (in_map fst fields p Hp). }
      unfold read in *. rewrite Hx in *. now constructor.
    + rewrite !lookup_not_in; [constructor | |].
      * intros Hin. apply Hout. now apply Hkeys.
      * now rewrite (keys_map_entry (fun q => back (snd q) (read o (fst q)))).
Qed.

Lemma trips_mapped (inner : Shape) (extract f : Val -> Val) :
  trips World inner -> trips World (SMapped inner extract f).
Proof.
  intros IH v w [Hc Ho]. destruct (IH (extract v) w Hc) as (He & Hd & _).
  repeat split.
  - exact He.
  - unfold fromObject in *. cbn.
    now rewrite (bind_returns _ _ _ Hd).
  - exact Ho.
Qed.

Lemma trips_mapRecord (fields : Obj ((Val -> Val) * Shape)) (f : Val -> Val) :
  Forall (fun p => trips World (snd (snd p))) fields ->
  trips World (SMapRecord fields f).
Proof.
  intros IH v w Hv.
  apply conforms_mapRecord in Hv as (Hnd & Hall & Hobs).
  set (fs := List.map (fun p => (fst p,
                sel (codec_of (World := World) (snd (snd p)))
                    (fun y => ret (fst (snd p) y)))) fields).
  assert (Hfs : NoDup (keys fs)).
  { unfold fs.
    now rewrite (keys_map_entry
                   (fun q => sel (codec_of (snd (snd q)))
                                 (fun y => ret (fst (snd q) y)))). }
  assert (Hstep : Forall (fun p =>
            toObject (codec_of (snd (snd p))) (fst (snd p) v) w
            = (Returns (tree (snd (snd p)) (fst (snd p) v)), w) /\
            fromObject (codec_of (snd (snd p)))
                       (tree (snd (snd p)) (fst (snd p) v)) w
            = (Returns (Ok (back (snd (snd p)) (fst (snd p) v))), w) /\
            truthy (tree (snd (snd p)) (fst (snd p) v)) = true) fields).
  { rewrite Forall_forall in *. intros p Hp.
    destruct (Hall p Hp) as [Hc Ht].
    destruct (IH p Hp _ w Hc) as (He & Hd & _). auto. }
  change (codec_of (SMapRecord fields f))
    with (mapRecord fs (fun a => ret (f a))).
  repeat split.
  - change (encodeRecord_loop v fs [] w
            = (Returns (tree (SMapRecord fields f) v), w)).
    apply encodeRecord_loop_returns.
    apply encode_fields_pure with (res0 := []); [| exact Hfs].
    unfold fs. apply Forall2_map_same.
    eapply Forall_impl; [| exact Hstep].
    intros p Hp. cbn. split; [reflexivity |]. apply Hp.
  - assert (Hd : decodeRecord (tree (SMapRecord fields f) v) fs w
                 = (Returns (Ok (VObj (List.map
                      (fun p => (fst p, back (snd (snd p)) (fst (snd p) v)))
                      fields))), w));
      [| unfold fromObject, mapRecord; cbn [map serde decode sameRecord];
         now rewrite (bind_returns _ _ _ Hd)].
    rewrite decodeRecord_object by reflexivity.
    apply decodeRecord_loop_accepts.
    apply decode_fields_pure with (res0 := []); [| exact Hfs].
    unfold fs. apply Forall2_map_same.
    rewrite Forall_forall in *. intros p Hp. cbn.
    split; [reflexivity |].
    exists (tree (snd (snd p)) (fst (snd p) v)).
    destruct (Hstep p Hp) as (He & Hd & Ht).
    repeat split; try assumption.
    unfold read.
    now rewrite (lookup_map_entry
                   (fun q => tree (snd (snd q)) (fst (snd q) v)) fields p Hnd Hp).
  - exact Hobs.
Qed.

Lemma codecs_trip (s : Shape) : trips World s.
Proof.
  induction s using Shape_induction.
  - apply trips_primitive. auto.
  - apply trips_primitive. auto.
  - apply trips_primitive. auto.
  - now apply trips_array.
  - now apply trips_record.
  - now apply trips_mapped.
  - now apply trips_mapRecord.
Qed.


End RoundTrip.

(** * More of the library *)

(** ** Selecting, transforming and filtering compose *)

Section Composition.

Context {World : Type} {host : Host}.

Variable c : Codec World.

Lemma map_ret_decode (d : Val) (w : World) :
  fromObject (map c (fun a => ret a)) d w = fromObject c d w.
Proof.
  unfold fromObject. cbn. unfold bind.
  destruct (decode (serde c) d w) as [[[a | m] | e] w1]; reflexivity.
Qed.

(** [sel] composes against the direction of the calls: selecting with [g]
    and then with [h] encodes [y] by running [h] on [y], then [g] on its
    result, then the encoder of [c] on the result of [g]; selecting with the
    identity encodes as [c]; and a selected codec decodes as [c]. *)
Theorem sel_composes (g h : Val -> M World Val) :
  (forall y w,
      toObject (sel (sel c g) h) y w
      = bind (h y) (fun x => bind (g x) (fun z => toObject c z)) w) /\
  (forall y w, toObject (sel c (fun x => ret x)) y w = toObject c y w) /\
  (forall d w, fromObject (sel (sel c g) h) d w = fromObject c d w).
Proof.
  split; [| split].
  - intros y w. unfold toObject. cbn. unfold bind.
    destruct (h y w) as [[x | e] w1]; reflexivity.
  - reflexivity.
  - reflexivity.
Qed.

(** [map] composes in the direction of the calls: transforming with [f] and
    then with [g] decodes as transforming once with [f] followed by [g],
    [g] being run only when [f] returned; transforming with the identity
    decodes as [c]; encoding is that of [c] throughout. *)
Theorem map_composes (f g : Val -> M World Val) :
  (forall d w,
      fromObject (map (map c f) g) d w
      = fromObject (map c (and_then f g)) d w) /\
  (forall d w, fromObject (map c (fun a => ret a)) d w = fromObject c d w) /\
  (forall x w, toObject (map (map c f) g) x w = toObject c x w).
Proof.
  split; [| split].
  - intros d w. unfold fromObject, and_then. cbn. unfold bind.
    destruct (decode (serde c) d w) as [[[a | m] | e] w1]; cbn;
      try reflexivity.
    unfold mapResult, bind.
    destruct (f a w1) as [[b | e] w2]; cbn; [| reflexivity].
    destruct (g b w2) as [[b' | e] w3]; reflexivity.
  - apply map_ret_decode.
  - reflexivity.
Qed.

(** Transforming a selected codec and selecting on a transformed codec
    give codecs that encode alike and decode alike. *)
Theorem map_sel_commute (f g : Val -> M World Val) :
  (forall y w,
      toObject (map (sel c g) f) y w = toObject (sel (map c f) g) y w) /\
  (forall d w,
      fromObject (map (sel c g) f) d w = fromObject (sel (map c f) g) d w).
Proof. split; reflexivity. Qed.

(** Two filters in a row: a failure of [c] passes through both; a value
    the first predicate rejects fails with the first message and the second
    predicate is not run; a value the first accepts and the second rejects
    fails with the second message; a value both accept is returned. *)
Theorem filter_composes (e1 e2 : String.string)
  (p1 p2 : Val -> M World bool) (d : Val) (w : World) :
  (forall m w',
      fromObject c d w = (Returns (Err m), w') ->
      fromObject (filter (filter c e1 p1) e2 p2) d w
      = (Returns (Err m), w')) /\
  (forall a w1 w2,
      fromObject c d w = (Returns (Ok a), w1) ->
      p1 a w1 = (Returns false, w2) ->
      fromObject (filter (filter c e1 p1) e2 p2) d w
      = (Returns (Err e1), w2)) /\
  (forall a w1 w2 w3,
      fromObject c d w = (Returns (Ok a), w1) ->
      p1 a w1 = (Returns true, w2) ->
      p2 a w2 = (Returns false, w3) ->
      fromObject (filter (filter c e1 p1) e2 p2) d w
      = (Returns (Err e2), w3)) /\
  (forall a w1 w2 w3,
      fromObject c d w = (Returns (Ok a), w1) ->
      p1 a w1 = (Returns true, w2) ->
      p2 a w2 = (Returns true, w3) ->
      fromObject (filter (filter c e1 p1) e2 p2) d w
      = (Returns (Ok a), w3)).
Proof.
  unfold fromObject. cbn. unfold bind.
  split; [| split; [| split]].
  - intros m w' H. now rewrite H.
  - intros a w1 w2 H H1. now rewrite H, H1.
  - intros a w1 w2 w3 H H1 H2. rewrite H, H1. cbn. now rewrite H2.
  - intros a w1 w2 w3 H H1 H2. rewrite H, H1. cbn. now rewrite H2.
Qed.

End Composition.

(** ** Arrays: encoding, and what a decode result tells *)

Section MoreArrays.

Context {World : Type} {host : Host}.

Variable c : Codec World.

Lemma mapM_returns (xs ns : list Val) (w w' : World) :
  encode_items c xs w ns w' ->
  mapM (fun x => encode (serde c) x) xs w = (Returns ns, w').
Proof.
  induction 1 as [w | x xs n ns w w1 w2 Hx _ IH]; cbn; [reflexivity |].
  unfold toObject in Hx. rewrite (bind_returns _ _ _ Hx).
  now rewrite (bind_returns _ _ _ IH).
Qed.

Lemma mapM_throws (pre post ns : list Val) (x : Val) (e : Exn)
  (w w1 w2 : World) :
  encode_items c pre w ns w1 ->
  toObject c x w1 = (Throws e, w2) ->
  mapM (fun x => encode (serde c) x) (pre ++ x :: post) w = (Throws e, w2).
Proof.
  induction 1 as [w | y ys n ns w w1 w3 Hy _ IH]; intros Hx; cbn.
  - unfold toObject in Hx. now rewrite (bind_throws _ _ _ Hx).
  - unfold toObject in Hy. rewrite (bind_returns _ _ _ Hy).
    now rewrite (bind_throws _ _ _ (IH Hx)).
Qed.

Lemma encode_items_length (xs ns : list Val) (w w' : World) :
  encode_items c xs w ns w' -> List.length ns = List.length xs.
Proof. induction 1; cbn; congruence. Qed.

Lemma decode_items_length (xs vs : list Val) (w w' : World) :
  decode_items c xs w vs w' -> List.length vs = List.length xs.
Proof. induction 1; cbn; congruence. Qed.


(** A failed array decode went wrong at one item, after accepting the
    items before it. *)
Lemma decodeArray_loop_err (xs : list Val) :
  forall value m w w',
    decodeArray_loop c xs value w = (Returns (Err m), w') ->
    exists pre x post vs w1,
      xs = pre ++ x :: post /\
      decode_items c pre w vs w1 /\
      fromObject c x w1 = (Returns (Err m), w').
Proof.
  induction xs as [| x xs IH]; intros value m w w' H; cbn in H.
  - discriminate.
  - unfold bind in H.
    destruct (decode (serde c) x w) as [[[v | m'] | e] w1] eqn:Hx;
      try discriminate.
    + apply IH in H as (pre & y & post & vs & w2 & -> & Hpre & Hy).
      exists (x :: pre), y, post, (v :: vs), w2. repeat split; try assumption.
      econstructor; eassumption.
    + injection H as <- <-.
      exists [], x, xs, [], w. repeat split; [constructor | exact Hx].
Qed.

(** Decoding with [array c] succeeds only on an array whose items the
    decoder of [c] accepts one after the other: the result is the array of
    their values, as long as the input. *)
Theorem array_decode_success (d r : Val) (w w' : World) :
  fromObject (array c) d w = (Returns (Ok r), w') ->
  exists xs vs,
    d = VArr xs /\ r = VArr vs /\
    decode_items c xs w vs w' /\
    List.length vs = List.length xs.
Proof.
  intros H. unfold fromObject in H. cbn in H. unfold decodeArray in H.
  destruct d; try discriminate. cbn in H.
  apply decodeArray_loop_inv in H as (vs & -> & Hvs).
  exists items, vs. repeat split; try assumption.
  now apply decode_items_length in Hvs.
Qed.

(** A failure of [array c] is "expected array" on a node that is not an
    array, with the world untouched, or it is the failure of the first item
    that the decoder of [c] rejects: [array] adds no failure of its own on
    an array. *)
Theorem array_decode_failure (d : Val) (m : String.string) (w w' : World) :
  fromObject (array c) d w = (Returns (Err m), w') ->
  (isArray d = false /\ m = "expected array"%string /\ w' = w) \/
  (exists pre x post vs w1,
      d = VArr (pre ++ x :: post) /\
      decode_items c pre w vs w1 /\
      fromObject c x w1 = (Returns (Err m), w')).
Proof.
  intros H. unfold fromObject in H. cbn in H. unfold decodeArray in H.
  destruct (isArray d) eqn:Ha; cbn in H.
  - right. destruct d; try discriminate. cbn in H.
    apply decodeArray_loop_err in H
      as (pre & x & post & vs & w1 & -> & Hpre & Hx).
    now exists pre, x, post, vs, w1.
  - left. injection H as <- <-. now repeat split.
Qed.

Lemma decodeArray_loop_total (xs : list Val) :
  decode_returns c ->
  forall value w, exists r w', decodeArray_loop c xs value w = (Returns r, w').
Proof.
  intros Hc. induction xs as [| x xs IH]; intros value w; cbn.
  - now eexists _, _.
  - destruct (Hc x w) as ([v | m] & w1 & Hx); unfold fromObject in Hx;
      rewrite (bind_returns _ _ _ Hx).
    + apply IH.
    + now eexists _, _.
Qed.

(** When the decoder of [c] never throws, neither does the decoder of
    [array c]: every node is answered with a [Result]. *)
Theorem array_decode_returns :
  decode_returns c -> decode_returns (array c).
Proof.
  intros Hc d w. unfold fromObject. cbn. unfold decodeArray.
  destruct (isArray d); cbn.
  - now apply decodeArray_loop_total.
  - now eexists _, _.
Qed.

End MoreArrays.

(** ** Records: what a decode result tells *)

Section MoreRecords.

Context {World : Type} {host : Host}.

#[local] Abbreviation Fields := (Obj (Codec World)).

Lemma get_prop_object (data : Val) (key : String.string) :
  typeof data = "object"%string ->
  data <> VNull ->
  exists v, forall w : World, get_prop data key w = (Returns v, w).
Proof.
  intros Ht Hn. destruct data; try discriminate; try contradiction; cbn.
  - destruct (index_of_key key) as [i |].
    + destruct (nth_error items i); now eexists.
    + destruct (key =? "length")%string; now eexists.
  - now eexists.
Qed.

Lemma set_prop_Forall {A : Type} (Q : String.string * A -> Prop)
  (o : Obj A) (key : String.string) (v : A) :
  Forall Q o -> (forall k, Q (k, v)) -> Forall Q (set_prop o key v).
Proof.
  intros Ho Hv. induction Ho as [| [k a] o Hka Ho IH]; cbn.
  - now constructor.
  - destruct (String.eqb_spec k key) as [-> | _]; constructor; auto.
Qed.

Lemma enlarge_decode_returns (fs : Fields) :
  Forall (fun p => decode_returns (snd p)) fs ->
  forall acc : Fields,
    Forall (fun p => decode_returns (snd p)) acc ->
    Forall (fun p => decode_returns (snd p)) (enlarge fs acc).
Proof.
  induction 1 as [| [k c] fs Hc _ IH]; intros acc Hacc; cbn; [exact Hacc |].
  apply IH. apply set_prop_Forall; [exact Hacc | intros ?; exact Hc].
Qed.

(** The head of [enlarged] is a selection by its own key. *)
Lemma enlarge_head_selected (fs : Fields) :
  forall (k : String.string) (c : Codec World) (acc : Fields),
    exists c' rest,
      enlarge fs ((k, sel c (fun r => get_prop r k)) :: acc)
      = (k, sel c' (fun r => get_prop r k)) :: rest.
Proof.
  induction fs as [| [k' c'] fs IH]; intros k c acc; cbn.
  - now exists c, acc.
  - destruct (String.eqb_spec k k') as [-> | _]; apply IH.
Qed.

Lemma decodeRecord_loop_total (data : Val) (fs : Fields) :
  typeof data = "object"%string ->
  data <> VNull ->
  Forall (fun p => decode_returns (snd p)) fs ->
  forall res w, exists r w', decodeRecord_loop data fs res w = (Returns r, w').
Proof.
  intros Ht Hn. induction 1 as [| [k c] fs Hc _ IH]; intros res w; cbn.
  - now eexists _, _.
  - destruct (get_prop_object k Ht Hn) as [val Hget].
    rewrite (bind_returns _ _ _ (Hget w)).
    destruct (truthy val); cbn; [| now eexists _, _].
    destruct (Hc val w) as ([v | m] & w1 & Hd); unfold fromObject in Hd;
      cbn in Hd; rewrite (bind_returns _ _ _ Hd).
    + apply IH.
    + now eexists _, _.
Qed.


(** A successful decode with [record] was given a node whose [typeof] is
    ['object'] and accepted every declared field in declaration order; when
    the node is a plain object, it answers every declared key with a truthy
    value, and every declared key that objects do not inherit is one of its
    own keys. *)
Theorem record_decode_success (fs : Fields) (data r : Val) (w w' : World) :
  NoDup (keys fs) ->
  fromObject (record fs) data w = (Returns (Ok r), w') ->
  typeof data = "object"%string /\
  exists res,
    r = VObj res /\
    decode_fields data fs w [] res w' /\
    (forall o, data = VObj o ->
               forall k, In k (keys fs) ->
                         truthy (read o k) = true /\
                         (inherited KObject k = None -> In k (keys o))).
Proof.
  intros Hfs H. rewrite record_decode in H by assumption.
  unfold decodeRecord in H.
  destruct (String.eqb_spec (typeof data) "object") as [Ht | _]; cbn in H;
    [| discriminate].
  split; [exact Ht |].
  apply decodeRecord_loop_inv in H as (res & -> & Hres).
  exists res. split; [reflexivity |]. split; [exact Hres |].
  intros o -> k Hk.
  pose proof (decode_fields_truthy Hres k Hk) as Htruthy.
  split; [exact Htruthy |]. intros Hi.
  destruct (lookup k o) eqn:Hl; [now apply lookup_some_in in Hl |].
  rewrite (read_absent o k Hl Hi) in Htruthy. discriminate.
Qed.

(** A node whose [typeof] is not ['object'] (a string, a number, a
    boolean, [undefined]) is rejected with "expected object" by [record]
    and by [mapRecord] alike, with the world untouched: no field is read,
    no decoder and no transform is run. *)
Theorem record_rejects_non_objects (fs : Fields) (f : Val -> M World Val)
  (data : Val) (w : World) :
  typeof data <> "object"%string ->
  fromObject (record fs) data w = (Returns (Err "expected object"), w) /\
  fromObject (mapRecord fs f) data w = (Returns (Err "expected object"), w).
Proof.
  intros H. split.
  - unfold fromObject, record. cbn. now apply decodeRecord_not_object.
  - unfold fromObject, mapRecord. cbn.
    now rewrite (bind_returns _ _ _ (decodeRecord_not_object data fs w H)).
Qed.

End MoreRecords.

(** ** Records: [mapRecord], and encoding *)

Section RecordsAndTransforms.

Context {World : Type} {host : Host}.

#[local] Abbreviation Fields := (Obj (Codec World)).


(** Encoding with [record] reads the declared fields off the value: on
    [null] and on [undefined] that read is a [TypeError] as soon as one
    field is declared, whatever the codecs of the fields, and no encoder is
    run; with no declared field every value, [null] included, is encoded
    as [{}]. *)
Theorem record_encode_edges :
  (forall (k : String.string) (c : Codec World) (rest : Fields) (w : World),
      toObject (record ((k, c) :: rest)) VNull w
      = (Throws (TypeError "Cannot read properties of null"), w) /\
      toObject (record ((k, c) :: rest)) VUndefined w
      = (Throws (TypeError "Cannot read properties of undefined"), w)) /\
  (forall (x : Val) (w : World),
      toObject (record []) x w = (Returns (VObj []), w)).
Proof.
  split.
  - intros k c rest w. unfold toObject, record. cbn.
    destruct (enlarge_head_selected rest k c []) as (c' & tl & ->).
    split; reflexivity.
  - reflexivity.
Qed.



End RecordsAndTransforms.

(** ** Records: a falsy field does not come back *)

Section FalsyRoundTrip.

Context {World : Type} {host : Host}.


End FalsyRoundTrip.

(** ** Arrays read back what their items read back *)

Section ArrayRoundTrip.

Context {World : Type} {host : Host}.

Variable c : Codec World.

(** For every codec [c], not only those put together from the combinators:
    when each item of an array is encoded by [c] to a tree that [c] decodes
    to the item again, without a change of the world, [array c] encodes the
    array to a tree that it decodes to the array again. *)
Theorem array_round_trip (xs : list Val) (w : World) :
  Forall (fun x => exists n, toObject c x w = (Returns n, w) /\
                             fromObject c n w = (Returns (Ok x), w)) xs ->
  round_trip (array c) (VArr xs) w = (Returns (Ok (VArr xs)), w).
Proof.
  intros H.
  assert (Hns : exists ns, encode_items c xs w ns w /\ decode_items c ns w xs w).
  { induction H as [| x xs (n & He & Hd) _ (ns & Hes & Hds)].
    - exists []. split; constructor.
    - exists (n :: ns). split; econstructor; eassumption. }
  destruct Hns as (ns & Hes & Hds).
  unfold round_trip.
  assert (Henc : toObject (array c) (VArr xs) w = (Returns (VArr ns), w)).
  { unfold toObject. cbn.
    now rewrite (bind_returns _ _ _ (mapM_returns Hes)). }
  rewrite (bind_returns _ _ _ Henc).
  now apply array_decode_accepts.
Qed.

End ArrayRoundTrip.

(** * The library in a standard host *)

(** From here on [x[key]] is answered by [standard_host]. *)
#[local] Existing Instance standard_host.

Section NullAndArrays.

Context {World : Type}.

(** C4, at the inputs where the code departs from it.  The guard of
    [decodeRecord] tests [typeof data !== 'object'], which lets [null] and
    arrays through: decoding [null] with [record({name: string})] throws a
    [TypeError] when the first field is read, decoding an array reports
    "missing field name", an array is even accepted by
    [record({length: number})], and with no declared field both [null] and
    arrays decode to [{}]. *)
Theorem record_decode_null_and_array (w : World) :
  fromObject (record [("name"%string, string)]) VNull w
  = (Throws (TypeError "Cannot read properties of null"), w) /\
  fromObject (record [("name"%string, string)]) (VArr [VStr "x"]) w
  = (Returns (Err "missing field name"), w) /\
  fromObject (record [("length"%string, number)]) (VArr [VStr "x"]) w
  = (Returns (Ok (VObj [("length"%string, num 1)])), w) /\
  fromObject (record []) VNull w = (Returns (Ok (VObj [])), w) /\
  fromObject (record []) (VArr []) w = (Returns (Ok (VObj [])), w).
Proof. repeat split. Qed.

End NullAndArrays.

(** ** The library at work *)

(** The assertions of the test suite that go through [toObject] and
    [fromObject]. *)

Example test_boolean :
  toObject boolean (VBool true) tt = (Returns (VBool true), tt) /\
  toObject boolean (VBool false) tt = (Returns (VBool false), tt) /\
  fromObject boolean (VBool true) tt = (Returns (Ok (VBool true)), tt).
Proof. repeat split. Qed.

Example test_number :
  toObject number (num 1) tt = (Returns (num 1), tt) /\
  fromObject number (num 1) tt = (Returns (Ok (num 1)), tt).
Proof. repeat split. Qed.

Example test_string :
  toObject string (VStr "foo") tt = (Returns (VStr "foo"), tt) /\
  fromObject string (VStr "foo") tt = (Returns (Ok (VStr "foo")), tt).
Proof. repeat split. Qed.

Example test_record :
  let codec := record [("name"%string, string); ("age"%string, number)] in
  let john := VObj [("name"%string, VStr "John"); ("age"%string, num 18)] in
  toObject codec john tt = (Returns john, tt) /\
  fromObject codec john tt = (Returns (Ok john), tt).
Proof. repeat split. Qed.

Example test_map :
  let codec :=
    sel (map number (fun n => ret (VObj [("num"%string, n)])))
        (fun x => get_prop x "num") in
  let one := VObj [("num"%string, num 1)] in
  toObject codec one tt = (Returns (num 1), tt) /\
  fromObject codec (num 1) tt = (Returns (Ok one), tt).
Proof. repeat split. Qed.

Example test_mapRecord :
  let codec :=
    mapRecord
      [("name"%string, sel string (fun u => get_prop u "name"));
       ("age"%string, sel number (fun u => get_prop u "age"))]
      (fun args =>
         name <- get_prop args "name" ;;
         age <- get_prop args "age" ;;
         ret (VObj [("name"%string, name); ("age"%string, age)])) in
  let john := VObj [("name"%string, VStr "John"); ("age"%string, num 18)] in
  toObject codec john tt = (Returns john, tt) /\
  fromObject codec john tt = (Returns (Ok john), tt).
Proof. repeat split. Qed.

Example test_array :
  let codec := array number in
  let xs := VArr [num 1; num 2; num 3] in
  toObject codec xs tt = (Returns xs, tt) /\
  fromObject codec xs tt = (Returns (Ok xs), tt).
Proof. repeat split. Qed.

(** ** Instances of the theorems *)

(** [c.map(f)] on a node [c] rejects: the callback records nothing. *)
Lemma map_spec_witness :
  let wrap := noting (fun n => VObj [("num"%string, n)]) in
  fromObject (map number wrap) (VStr "x") []
  = (Returns (Err "expected number "), []) /\
  fromObject (map number wrap) (num 1) []
  = (Returns (Ok (VObj [("num"%string, num 1)])), [num 1]).
Proof.
  split.
  - apply (proj1 (map_spec number _ (VStr "x") [])). reflexivity.
  - apply (proj1 (proj2 (map_spec number _ (num 1) [])))
      with (a := num 1) (w1 := []); reflexivity.
Defined.

Lemma filter_spec_witness :
  let nonzero := noting_cond truthy in
  fromObject (filter number "zero" nonzero) (VStr "x") []
  = (Returns (Err "expected number "), []) /\
  fromObject (filter number "zero" nonzero) (num 0) []
  = (Returns (Err "zero"), [num 0]) /\
  fromObject (filter number "zero" nonzero) (num 2) []
  = (Returns (Ok (num 2)), [num 2]).
Proof.
  split; [| split].
  - apply (proj1 (filter_spec number "zero" _ (VStr "x") [])). reflexivity.
  - apply (proj1 (proj2 (filter_spec number "zero" _ (num 0) [])))
      with (a := num 0) (w1 := []); reflexivity.
  - apply (proj2 (proj2 (filter_spec number "zero" _ (num 2) [])))
      with (w1 := []); reflexivity.
Defined.

(** Decoding [[1, "x", 3]] with [array(number)]: the decoder of the items
    is handed [1] and ["x"], and never [3]. *)
Lemma array_decode_witness :
  fromObject (array (spy number)) (VStr "abc") []
  = (Returns (Err "expected array"), []) /\
  fromObject (array (spy number)) (VArr ([num 1] ++ VStr "x" :: [num 3])) []
  = (Returns (Err "expected number "), [num 1; VStr "x"]) /\
  fromObject (array (spy number)) (VArr [num 1; num 2]) []
  = (Returns (Ok (VArr [num 1; num 2])), [num 1; num 2]).
Proof.
  split; [| split].
  - apply (proj1 (array_decode_spec (spy number))). reflexivity.
  - apply (proj1 (proj2 (array_decode_spec (spy number))))
      with (vs := [num 1]) (w1 := [num 1]).
    + apply decode_items_cons with (w1 := [num 1]);
        [reflexivity | apply decode_items_nil].
    + reflexivity.
  - apply (proj2 (proj2 (array_decode_spec (spy number)))).
    apply decode_items_cons with (w1 := [num 1]); [reflexivity |].
    apply decode_items_cons with (w1 := [num 1; num 2]); [reflexivity |].
    apply decode_items_nil.
Defined.

Lemma keys_distinct_2 (a b : String.string) :
  a <> b -> NoDup [a; b].
Proof.
  intros H. constructor; [| constructor; [intros [] | constructor]].
  intros [E | []]. now apply H.
Defined.

Lemma keys_distinct_3 (a b c : String.string) :
  a <> b -> a <> c -> b <> c -> NoDup [a; b; c].
Proof.
  intros Hab Hac Hbc. constructor; [| now apply keys_distinct_2].
  intros [E | [E | []]]; [now apply Hab | now apply Hac].
Defined.






(** [fromJSON] on the text [{], which is not JSON, and on [true]. *)
Lemma fromJSON_uncaught_witness :
  fromJSON parse_literal_names boolean "{" tt
  = (Throws (SyntaxError "Unexpected token in JSON"), tt) /\
  fromJSON parse_literal_names boolean "true" tt
  = (Returns (Ok (VBool true)), tt).
Proof.
  split.
  - apply (proj1 (fromJSON_uncaught parse_literal_names boolean "{" tt)).
    reflexivity.
  - rewrite (proj2 (fromJSON_uncaught parse_literal_names boolean "true" tt)
               (VBool true) tt eq_refl).
    reflexivity.
Defined.

(** C2 as stated fails: on the malformed text [{] the call does not return
    a failure, the parser's exception leaves [fromJSON]. *)
Lemma fromJSON_counterexample :
  parse_literal_names "{" tt
  = (Throws (SyntaxError "Unexpected token in JSON"), tt) /\
  fromJSON parse_literal_names number "{" tt
  = (Throws (SyntaxError "Unexpected token in JSON"), tt) /\
  (forall (message : String.string) (w : unit),
      fromJSON parse_literal_names number "{" tt
      <> (Returns (Err message), w)).
Proof. repeat split. discriminate. Qed.

Section ValInduction.

Variable P : Val -> Prop.

Hypothesis P_undefined : P VUndefined.
Hypothesis P_null : P VNull.
Hypothesis P_bool : forall b, P (VBool b).
Hypothesis P_num : forall n, P (VNum n).
Hypothesis P_str : forall s, P (VStr s).
Hypothesis P_arr : forall items, Forall P items -> P (VArr items).
Hypothesis P_obj : forall props,
    Forall (fun p => P (snd p)) props -> P (VObj props).
Hypothesis P_fun : forall name, P (VFun name).

Lemma Val_induction : forall v, P v.
Proof.
  fix IH 1. intros [| | b | n | s | items | props | name].
  - exact P_undefined.
  - exact P_null.
  - apply P_bool.
  - apply P_num.
  - apply P_str.
  - apply P_arr. induction items as [| x items IHi]; constructor.
    + apply IH.
    + exact IHi.
  - apply P_obj. induction props as [| [k x] props IHp]; constructor.
    + apply IH.
    + exact IHp.
  - apply P_fun.
Qed.

End ValInduction.

Lemma obs_eq_refl (v : Val) : obs_eq v v.
Proof.
  induction v as [| | b | n | s | items IH | props IH | name]
    using Val_induction;
    try constructor.
  - induction IH; constructor; assumption.
  - intros k. induction IH as [| [k' x] props Hx _ IHp]; cbn.
    + constructor.
    + destruct (k' =? k)%string; [now constructor | exact IHp].
Qed.



(** ** Instances of the further theorems *)

Lemma primitive_decode_returns {World : Type} (c : Codec World) :
  primitive c -> decode_returns c.
Proof.
  intros [-> | [-> | ->]] d w; destruct d; cbn; now eexists _, _.
Qed.

(** A number filtered to be non-zero, then to be non-negative. *)
Lemma filter_composes_witness :
  let nonzero := noting_cond truthy in
  let nonnegative :=
    noting_cond (fun v => match v with
                          | VNum (S754_finite true _ _) => false
                          | _ => true
                          end) in
  let c := filter (filter number "zero" nonzero) "negative" nonnegative in
  fromObject c (VStr "x") [] = (Returns (Err "expected number "), []) /\
  fromObject c (num 0) [] = (Returns (Err "zero"), [num 0]) /\
  fromObject c (num (-1)) []
  = (Returns (Err "negative"), [num (-1); num (-1)]) /\
  fromObject c (num 2) [] = (Returns (Ok (num 2)), [num 2; num 2]).
Proof.
  split; [| split; [| split]].
  - apply (proj1 (filter_composes number "zero" "negative" _ _ (VStr "x") [])).
    reflexivity.
  - apply (proj1 (proj2 (filter_composes number "zero" "negative" _ _
                                         (num 0) [])))
      with (a := num 0) (w1 := []); reflexivity.
  - apply (proj1 (proj2 (proj2 (filter_composes number "zero" "negative" _ _
                                                (num (-1)) []))))
      with (a := num (-1)) (w1 := []) (w2 := [num (-1)]); reflexivity.
  - apply (proj2 (proj2 (proj2 (filter_composes number "zero" "negative" _ _
                                                (num 2) []))))
      with (w1 := []) (w2 := [num 2]); reflexivity.
Defined.


Lemma array_decode_success_witness :
  exists xs vs,
    VArr [num 1; num 2] = VArr xs /\ VArr [num 1; num 2] = VArr vs /\
    decode_items (@number unit) xs tt vs tt /\
    List.length vs = List.length xs.
Proof.
  apply (@array_decode_success unit number (VArr [num 1; num 2])
                               (VArr [num 1; num 2]) tt tt).
  reflexivity.
Defined.

Lemma array_decode_failure_witness :
  let d := VArr [num 1; VStr "x"; num 3] in
  (isArray d = false /\ "expected number "%string = "expected array"%string /\
   tt = tt) \/
  (exists pre x post vs w1,
      d = VArr (pre ++ x :: post) /\
      decode_items (@number unit) pre tt vs w1 /\
      fromObject number x w1 = (Returns (Err "expected number "), tt)).
Proof.
  apply (@array_decode_failure unit number
           (VArr [num 1; VStr "x"; num 3]) "expected number " tt tt).
  reflexivity.
Defined.

Lemma array_decode_returns_witness : decode_returns (array (@number unit)).
Proof.
  apply array_decode_returns. apply primitive_decode_returns.
  right. now left.
Defined.


Lemma record_decode_success_witness :
  let user := [("name"%string, @string unit); ("age"%string, number)] in
  let john := VObj [("age"%string, num 18); ("name"%string, VStr "John");
                    ("admin"%string, VBool true)] in
  typeof john = "object"%string /\
  exists res,
    VObj [("name"%string, VStr "John"); ("age"%string, num 18)] = VObj res /\
    decode_fields john user tt [] res tt /\
    (forall o, john = VObj o ->
               forall k, In k (keys user) ->
                         truthy (read o k) = true /\
                         (inherited KObject k = None -> In k (keys o))).
Proof.
  apply (@record_decode_success unit _
           [("name"%string, string); ("age"%string, number)]).
  - apply keys_distinct_2; discriminate.
  - reflexivity.
Defined.

(** A string handed to [record] and to [mapRecord]: the transform records
    nothing. *)
Lemma record_rejects_non_objects_witness :
  let user := [("name"%string, @string Log); ("age"%string, number)] in
  fromObject (record user) (VStr "John") []
  = (Returns (Err "expected object"), []) /\
  fromObject (mapRecord user (noting (fun args => args))) (VStr "John") []
  = (Returns (Err "expected object"), []).
Proof.
  apply record_rejects_non_objects. discriminate.
Defined.





(** An array of [{name, age}] records. *)
Lemma array_round_trip_witness :
  let user := record [("name"%string, @string unit); ("age"%string, number)] in
  let john := VObj [("name"%string, VStr "John"); ("age"%string, num 18)] in
  let jane := VObj [("name"%string, VStr "Jane"); ("age"%string, num 21)] in
  round_trip (array user) (VArr [john; jane]) tt
  = (Returns (Ok (VArr [john; jane])), tt).
Proof.
  intros user john jane. apply array_round_trip.
  constructor; [| constructor; [| constructor]].
  - exists john. split; reflexivity.
  - exists jane. split; reflexivity.
Defined.
